(** * Core of the ARMv8 emulator (src/include/core.hpp)

    Shallow embedding of the architectural state, the register accessors
    [GPZR]/[GPSP], the flag and logical-immediate primitives, the decoder and
    the debug/breakpoint controller of [arm::Core].  Only the class header is
    part of the sources; the member-function bodies that it declares but does
    not define are modelled from the specification and marked so. *)

From Stdlib Require Import ZArith Lia Bool String.
From stdpp Require Import base list.

Open Scope Z_scope.

(** ** Architectural state *)

(** [struct PSTATE]: one-bit fields and the two-bit [EL]; every field is kept
    as a [Z] holding the bit-field value. *)
Record PSTATE_t := mkPSTATE {
  PS_N : Z; PS_Z : Z; PS_C : Z; PS_V : Z;
  PS_D : Z; PS_A : Z; PS_I : Z; PS_F : Z;
  PS_SS : Z; PS_IL : Z;
  PS_EL : Z;
  PS_RW : Z; PS_SP : Z
}.

(** Assigning to an [N]-bit bit-field keeps the low [N] bits. *)
Definition bitfield (width v : Z) : Z := v mod 2 ^ width.

Definition set_NZCV (ps : PSTATE_t) (n z c v : Z) : PSTATE_t :=
  {| PS_N := bitfield 1 n; PS_Z := bitfield 1 z; PS_C := bitfield 1 c;
     PS_V := bitfield 1 v;
     PS_D := PS_D ps; PS_A := PS_A ps; PS_I := PS_I ps; PS_F := PS_F ps;
     PS_SS := PS_SS ps; PS_IL := PS_IL ps; PS_EL := PS_EL ps;
     PS_RW := PS_RW ps; PS_SP := PS_SP ps |}.

Definition set_RW_SP (ps : PSTATE_t) (rw sp : Z) : PSTATE_t :=
  {| PS_N := PS_N ps; PS_Z := PS_Z ps; PS_C := PS_C ps; PS_V := PS_V ps;
     PS_D := PS_D ps; PS_A := PS_A ps; PS_I := PS_I ps; PS_F := PS_F ps;
     PS_SS := PS_SS ps; PS_IL := PS_IL ps; PS_EL := PS_EL ps;
     PS_RW := bitfield 1 rw; PS_SP := bitfield 1 sp |}.

Definition PSTATE_zero : PSTATE_t := mkPSTATE 0 0 0 0 0 0 0 0 0 0 0 0 0.

Definition with_EL (ps : PSTATE_t) (el : Z) : PSTATE_t :=
  {| PS_N := PS_N ps; PS_Z := PS_Z ps; PS_C := PS_C ps; PS_V := PS_V ps;
     PS_D := PS_D ps; PS_A := PS_A ps; PS_I := PS_I ps; PS_F := PS_F ps;
     PS_SS := PS_SS ps; PS_IL := PS_IL ps; PS_EL := bitfield 2 el;
     PS_RW := PS_RW ps; PS_SP := PS_SP ps |}.

(** [NumBreakpoints] and [TemporarySteppingBreakpointId] (core.hpp 81-82). *)
Definition NumBreakpoints : nat := 16.
Definition TemporarySteppingBreakpointId : nat := NumBreakpoints.

(** The data members of [class Core] that the claims touch.  [GPR] is the
    storage of [core::GPRegister], one 64-bit value per index; [PC] is the
    program counter.  [retired] is a ghost counter of executed
    fetch/decode/execute cycles, used only to observe how many cycles ran. *)
Record Core := mkCore {
  m_halted : bool;
  m_broken : bool;
  m_debugMode : bool;
  m_breakpoints : list (option Z);
  GPR : list Z;
  PC : Z;
  PSTATE : PSTATE_t;
  retired : nat
}.

Definition set_PSTATE (c : Core) (ps : PSTATE_t) : Core :=
  mkCore (m_halted c) (m_broken c) (m_debugMode c) (m_breakpoints c)
         (GPR c) (PC c) ps (retired c).

Definition set_GPR (c : Core) (g : list Z) : Core :=
  mkCore (m_halted c) (m_broken c) (m_debugMode c) (m_breakpoints c)
         g (PC c) (PSTATE c) (retired c).

(** ** Register accessors (core.hpp 106-112)

    Both return a reference into [GPR]; the reference is modelled by the
    index it designates. *)

(** [GPZR(R) { return GPR[R]; }] *)
Definition GPZR (c : Core) (R : Z) : Z := R.

(** [GPSP(R) { return GPR[R < 31 ? R : 32 + PSTATE.EL]; }] *)
Definition GPSP (c : Core) (R : Z) : Z :=
  if R <? 31 then R else 32 + PS_EL (PSTATE c).

(** The index the specification gives for the stack pointer of the current
    exception level ("banked at indices 31..31+EL"). *)
Definition spec_SP_index (c : Core) : Z := 31 + PS_EL (PSTATE c).

(** A sample core: every register zero, PC 0, debug off, no breakpoints. *)
Definition core0 : Core :=
  mkCore false false false (repeat None (S NumBreakpoints)) (repeat 0 33) 0
         PSTATE_zero 0.

(** ** Register file

    Modelled from the spec: the storage and indexing of [core::GPRegister]
    and the views of [core::RegisterDouble] (register.hpp is not part of the
    sources).  Following the specification: 64-bit registers; index 31 is the
    zero-register alias, which reads as zero and discards writes; a write
    through the 32-bit view zero-extends into the full register.  Indices
    outside the storage read as [None] and are not written. *)
Definition ZR_index : Z := 31.

Definition gpr_read (g : list Z) (i : Z) : option Z :=
  if i =? ZR_index then Some 0 else g !! Z.to_nat i.

Definition gpr_write (g : list Z) (i v : Z) : list Z :=
  if i =? ZR_index then g else <[Z.to_nat i := v mod 2 ^ 64]> g.

(** The X (64-bit) and W (32-bit) views. *)
Definition read_X (g : list Z) (i : Z) : option Z := gpr_read g i.
Definition read_W (g : list Z) (i : Z) : option Z :=
  option_map (fun x => x mod 2 ^ 32) (gpr_read g i).
Definition write_X (g : list Z) (i v : Z) : list Z := gpr_write g i (v mod 2 ^ 64).
Definition write_W (g : list Z) (i v : Z) : list Z := gpr_write g i (v mod 2 ^ 32).

(** ** Flag primitive [setNZCVFlags(old, new)]

    Modelled from the spec: the body of [Core::setNZCVFlags] is not part of
    the sources.  The specification reads the pair as the values before and
    after an additive operation of the given width, so the addend is
    [(new - old) mod 2^w]; the flags are those of the architecture's
    AddWithCarry on [old] and that addend: N is the sign bit of the result, Z
    is [result == 0], C the unsigned carry-out and V the signed overflow. *)
Definition sint (w x : Z) : Z := if x <? 2 ^ (w - 1) then x else x - 2 ^ w.

Definition setNZCVFlags_w (w : Z) (c : Core) (oldValue newValue : Z) : Core :=
  let o := oldValue mod 2 ^ w in
  let n := newValue mod 2 ^ w in
  let operand := (n - o) mod 2 ^ w in
  let unsigned_sum := o + operand in
  let signed_sum := sint w o + sint w operand in
  set_PSTATE c
    (set_NZCV (PSTATE c)
       (Z.b2z (Z.testbit n (w - 1)))
       (Z.b2z (n =? 0))
       (Z.b2z (negb (unsigned_sum =? n)))
       (Z.b2z (negb (signed_sum =? sint w n)))).

(** The [u32] and [u64] overloads. *)
Definition setNZCVFlags32 (c : Core) (oldValue newValue : Z) : Core :=
  setNZCVFlags_w 32 c oldValue newValue.
Definition setNZCVFlags64 (c : Core) (oldValue newValue : Z) : Core :=
  setNZCVFlags_w 64 c oldValue newValue.

(** ** Errors of the core (spec, section 7) *)
Inductive CoreError :=
| UndefinedEncoding
| InvalidImmediateEncoding.

(** ** Logical-immediate decoding [decodeImmediateWMask(N, imms, immr)]

    Modelled from the spec: the body of [Core::decodeImmediateWMask] is not
    part of the sources.  The specification asks for the architecture's
    logical-immediate algorithm: the element size is [2^len] with [len] the
    highest set bit of [N:NOT(imms)] (7 bits); a [len] below 1 is a reserved
    encoding and fails; the element holds [S + 1] ones, [S] the low [len]
    bits of [imms], rotated right by the low [len] bits of [immr] and
    replicated over the 64-bit result. *)
Definition HighestSetBit (x : Z) : Z := if x <=? 0 then -1 else Z.log2 x.

Definition wmask_len (N imms : Z) : Z :=
  HighestSetBit (Z.lor (Z.shiftl (Z.land N 1) 6) (Z.lxor (Z.land imms 63) 63)).

(** Rotate an [esize]-bit element right by [r]. *)
Definition ROR (x r esize : Z) : Z :=
  Z.land (Z.lor (Z.shiftr x r) (Z.shiftl x (esize - r))) (Z.ones esize).

(** [n] copies of an [esize]-bit element side by side. *)
Fixpoint Replicate (elem esize : Z) (n : nat) : Z :=
  match n with
  | O => 0
  | S k => Z.lor (Z.shiftl (Replicate elem esize k) esize) elem
  end.

Definition decodeImmediateWMask (N imms immr : Z) : CoreError + Z :=
  let len := wmask_len N imms in
  if len <? 1 then inl InvalidImmediateEncoding
  else
    let esize := 2 ^ len in
    let levels := Z.ones len in
    let S := Z.land imms levels in
    let R := Z.land immr levels in
    inr (Replicate (ROR (Z.ones (S + 1)) R esize) esize (Z.to_nat (64 / esize))).

(** Checker used to establish the reserved encodings over all [(N, imms)]:
    the decode fails exactly on [N = 0, imms >= 0b111110], and the element
    size exponent never exceeds 6. *)
Definition wmask_len_ok (N imms : Z) : bool :=
  Bool.eqb (wmask_len N imms <? 1) ((N =? 0) && (62 <=? imms))
  && (wmask_len N imms <=? 6).

(** ** Instruction patterns and the decoder *)

(** The handlers declared with [INSTRUCTION_DECL] (core.hpp 183-210); a
    pointer to member function is modelled by the handler it names. *)
Inductive InstructionHandler :=
| NOP | ADD_IMMEDIATE | ADD_SHIFTED_REGISTER | ADDS_IMMEDIATE
| SUB_IMMEDIATE | SUB_SHIFTED_REGISTER | SUBS_IMMEDIATE
| SUBS_SHIFTED_REGISTER | SUBS_EXTENDED_REGISTER
| ORR_IMMEDIATE | ORR_SHIFTED_REGISTER | MOVNZK
| B | B_COND | BL | CCMN_IMMEDIATE | CCMN_REGISTER | SVC | ADRP
| AND_IMMEDIATE | AND_SHIFTED_REGISTER | ANDS_IMMEDIATE
| ANDS_SHIFTED_REGISTER | STR_IMMEDIATE | STR_REGISTER
| LDR_IMMEDIATE | LDR_REGISTER | CBZ.

(** [struct InstructionPattern { u32 mask; u32 pattern; InstructionHandler
    type; const char *name; }] (core.hpp 21-26). *)
Record InstructionPattern := mkPattern {
  mask : Z;
  pattern : Z;
  type : InstructionHandler;
  name : string
}.

(** The matching predicate [(word & mask) == pattern]. *)
Definition pattern_matches (word : Z) (p : InstructionPattern) : bool :=
  Z.land word (mask p) =? pattern p.

(** Modelled from the spec: the body of [Core::decode] and the contents of
    [getInstructionPatternLUT()] are not part of the sources.  Following the
    specification, [decode] scans the table in order and returns the handler
    of the first entry whose mask/pattern matches the word, and reports an
    undefined encoding when none does.  The table is a parameter. *)
Fixpoint decode (lut : list InstructionPattern) (instruction : Z)
  : CoreError + InstructionHandler :=
  match lut with
  | [] => inl UndefinedEncoding
  | p :: rest =>
      if pattern_matches instruction p then inr (type p)
      else decode rest instruction
  end.

(** A table with a deliberately overlapping pair: the second entry ignores
    the S bit and so also matches every ADDS (immediate) word. *)
Definition overlapping_lut : list InstructionPattern :=
  [ mkPattern 2139095040 822083584 ADDS_IMMEDIATE "ADDS_IMMEDIATE";
    mkPattern 1602224128 285212672 ADD_IMMEDIATE "ADD_IMMEDIATE" ].

(** [adds x1, x2, #5]. *)
Definition adds_x1_x2_5 : Z := 2969572417.

(** ** Debug / breakpoint controller

    Modelled from the spec: the bodies of [tick], [enterDebugMode],
    [exitDebugMode], [breakCore], [continueCore], [setBreakpoint] and
    [singleStep] are not part of the sources.  The data they work on is the
    header's: the flags [m_halted], [m_broken], [m_debugMode] and the table
    [m_breakpoints] of [NumBreakpoints + 1] optional addresses, the last one
    at [TemporarySteppingBreakpointId]. *)

Definition set_debug (c : Core) (halted broken debugMode : bool)
  (bps : list (option Z)) : Core :=
  mkCore halted broken debugMode bps (GPR c) (PC c) (PSTATE c) (retired c).

Definition enterDebugMode (c : Core) : Core :=
  set_debug c (m_halted c) (m_broken c) true (m_breakpoints c).

Definition exitDebugMode (c : Core) : Core :=
  set_debug c (m_halted c) false false (m_breakpoints c).

(** [breakCore] only has an effect in debug mode. *)
Definition breakCore (c : Core) : Core :=
  set_debug c (m_halted c) (m_broken c || m_debugMode c) (m_debugMode c)
    (m_breakpoints c).

Definition continueCore (c : Core) : Core :=
  set_debug c (m_halted c) false (m_debugMode c) (m_breakpoints c).

Definition halt (c : Core) : Core :=
  set_debug c true (m_broken c) (m_debugMode c) (m_breakpoints c).

(** First free slot among the user slots [id .. id + fuel - 1]. *)
Fixpoint find_free (bps : list (option Z)) (id fuel : nat) : option nat :=
  match fuel with
  | O => None
  | S f =>
      match bps !! id with
      | Some None => Some id
      | _ => find_free bps (S id) f
      end
  end.

(** [setBreakpoint(address)]: the first free user slot receives the address
    and its id is returned; [None] reports that every user slot is taken,
    and the core is then left as it was. *)
Definition setBreakpoint (c : Core) (address : Z) : option (nat * Core) :=
  match find_free (m_breakpoints c) 0 NumBreakpoints with
  | Some id =>
      Some (id, set_debug c (m_halted c) (m_broken c) (m_debugMode c)
                  (<[id := Some address]> (m_breakpoints c)))
  | None => None
  end.

Definition removeBreakpoint (c : Core) (breakpointId : nat) : Core :=
  set_debug c (m_halted c) (m_broken c) (m_debugMode c)
    (<[breakpointId := None]> (m_breakpoints c)).

(** The address that follows [pc] (one 4-byte instruction, 64-bit wrap). *)
Definition next_address (pc : Z) : Z := (pc + 4) mod 2 ^ 64.

(** Is some slot armed at [pc]? *)
Definition breakpoint_hit (bps : list (option Z)) (pc : Z) : bool :=
  existsb (fun o => match o with Some a => a =? pc | None => false end) bps.

(** Is the step slot armed? *)
Definition step_armed (c : Core) : bool :=
  match m_breakpoints c !! TemporarySteppingBreakpointId with
  | Some (Some _) => true
  | _ => false
  end.

(** End of a step: the step slot is disarmed and the core re-enters
    [Broken]. *)
Definition finishStep (c : Core) : Core :=
  set_debug c (m_halted c) true (m_debugMode c)
    (<[TemporarySteppingBreakpointId := None]> (m_breakpoints c)).

(** The debug controller consulted after a cycle: in debug mode, a step in
    progress (the step slot armed) ends after its one cycle. *)
Definition after_cycle (c : Core) : Core :=
  if m_debugMode c && step_armed c then finishStep c else c.

(** The first part of [singleStep()]: arm the step slot with the address
    following the PC and leave [Broken]. *)
Definition armStep (c : Core) : Core :=
  set_debug c (m_halted c) false (m_debugMode c)
    (<[TemporarySteppingBreakpointId := Some (next_address (PC c))]>
       (m_breakpoints c)).

Section Tick.

(** The control flow of the loaded program: the PC after executing the
    instruction at a given address (fetch, decode and the handler are
    outside this model). *)
Variable next_pc : Z -> Z.

(** One fetch/decode/execute cycle. *)
Definition cycle (c : Core) : Core :=
  mkCore (m_halted c) (m_broken c) (m_debugMode c) (m_breakpoints c)
         (GPR c) (next_pc (PC c)) (PSTATE c) (S (retired c)).

(** [tick()]: nothing when halted or broken.  In debug mode the debug
    controller is consulted before the cycle: a PC that hits an armed slot
    breaks the core and suppresses the cycle.  Otherwise one cycle runs and
    the controller is consulted after it ([after_cycle]). *)
Definition tick (c : Core) : Core :=
  if m_halted c then c
  else if m_debugMode c && m_broken c then c
  else if m_debugMode c && breakpoint_hit (m_breakpoints c) (PC c) then
    set_debug c (m_halted c) true (m_debugMode c)
      (<[TemporarySteppingBreakpointId := None]> (m_breakpoints c))
  else after_cycle (cycle c).

(** [singleStep()]: arm the step slot with the address following the PC,
    resume for exactly one fetch/decode/execute cycle, then disarm the step
    slot and re-enter [Broken] (the consultation after the cycle). *)
Definition singleStep (c : Core) : Core :=
  after_cycle (cycle (armStep c)).

End Tick.

(** [Core(AddressSpace *addressSpace)] with the member initializers of core.hpp 122-128:
    not halted, not broken, not in debug mode, every breakpoint slot empty
    (a default [std::optional]).  The registers are left as given. *)
Definition new_Core (gpr : list Z) (pc : Z) (ps : PSTATE_t) : Core :=
  mkCore false false false (repeat None (S NumBreakpoints)) gpr pc ps 0.

(** A program whose instruction at address 0 branches to 0x100; every
    other instruction falls through. *)
Definition branch_at_0 (pc : Z) : Z := if pc =? 0 then 256 else next_address pc.

(** A core in debug mode, broken at PC 0, with no breakpoint set. *)
Definition broken_at_0 : Core :=
  mkCore false true true (repeat None (S NumBreakpoints)) (repeat 0 33) 0
         PSTATE_zero 0.

(** * Properties *)

(** ** Generic helpers *)

(** Closes a closed goal of comparisons between integer constants. *)
Ltac zrange :=
  vm_compute; repeat split; first [reflexivity | intros ?; discriminate].

Lemma bitfield1_b2z (b : bool) : bitfield 1 (Z.b2z b) = Z.b2z b.
Proof. destruct b; reflexivity. Qed.

Lemma Z_in_seq_range (z : Z) (n : nat) :
  0 <= z < Z.of_nat n -> In z (map Z.of_nat (seq 0 n)).
Proof.
  intros Hz. apply in_map_iff. exists (Z.to_nat z). split.
  - apply Z2Nat.id. lia.
  - apply in_seq. lia.
Qed.

Lemma mod_diff (a b m : Z) :
  0 <= a < m -> 0 <= b < m ->
  (a - b) mod m = if b <=? a then a - b else a - b + m.
Proof.
  intros Ha Hb. destruct (Z.leb_spec b a).
  - apply Z.mod_small. lia.
  - symmetry. apply Z.mod_unique with (-1); lia.
Qed.

(** ** Register accessors *)

(** C1 (corrected).  [GPSP(31)] is not the index [31 + EL] of the
    specification: at EL 0 it is 32.  Nor does the SP bit take part: at EL 1
    the two values of SP select the same register. *)
Lemma GPSP_31_not_spec_index_cex :
  GPSP core0 31 <> spec_SP_index core0 /\
  GPSP (set_PSTATE core0 (set_RW_SP (with_EL PSTATE_zero 1) 1 0)) 31 =
  GPSP (set_PSTATE core0 (set_RW_SP (with_EL PSTATE_zero 1) 1 1)) 31.
Proof. split; [discriminate | reflexivity]. Qed.

(** C1 (amended).  [GPSP(R)] designates [GPR[R]] for [R < 31] and
    [GPR[32 + EL]] for every [R >= 31]; the choice ignores [RW] and [SP]; for
    [R >= 31] the index lies in 32..35 and is below 33 only at EL 0. *)
Theorem GPSP_index_selection (c : Core) (R rw sp : Z)
  (HEL : 0 <= PS_EL (PSTATE c) < 4) :
  (R < 31 -> GPSP c R = R) /\
  (31 <= R -> GPSP c R = 32 + PS_EL (PSTATE c)) /\
  GPSP (set_PSTATE c (set_RW_SP (PSTATE c) rw sp)) R = GPSP c R /\
  (31 <= R -> 32 <= GPSP c R <= 35 /\ (GPSP c R < 33 <-> PS_EL (PSTATE c) = 0)).
Proof.
  unfold GPSP. destruct (Z.ltb_spec R 31) as [HR | HR].
  - repeat split; intros; lia.
  - simpl. repeat split; intros; lia.
Qed.

Lemma GPSP_index_selection_witness :
  0 <= PS_EL (PSTATE (set_PSTATE core0 (with_EL PSTATE_zero 2))) < 4 /\
  GPSP (set_PSTATE core0 (with_EL PSTATE_zero 2)) 31 = 34.
Proof.
  split; [zrange |].
  destruct (GPSP_index_selection (set_PSTATE core0 (with_EL PSTATE_zero 2))
              31 0 0 ltac:(zrange))
    as [_ [H _]].
  rewrite H; [reflexivity | lia].
Defined.

(** C8.  Writing a 32-bit value through the W view of a general-purpose
    register leaves that value, zero-extended, in the full 64-bit register:
    the X view reads [v] and its upper 32 bits are zero. *)
Theorem write_W_zero_extends (g : list Z) (i v : Z)
  (Hi : 0 <= i) (Hlen : (Z.to_nat i < length g)%nat) (Hzr : i <> ZR_index)
  (Hv : 0 <= v < 2 ^ 32) :
  exists x, read_X (write_W g i v) i = Some x /\ x = v /\
            Z.shiftr x 32 = 0 /\ read_W (write_W g i v) i = Some v.
Proof.
  exists v.
  assert (Hm : v mod 2 ^ 32 mod 2 ^ 64 = v).
  { rewrite (Z.mod_small v); [| lia]. apply Z.mod_small. lia. }
  unfold read_W, read_X, write_W, gpr_write, gpr_read.
  apply Z.eqb_neq in Hzr. rewrite Hzr.
  rewrite list_lookup_insert_eq by exact Hlen. rewrite Hm.
  repeat split.
  - rewrite Z.shiftr_div_pow2 by lia. apply Z.div_small. lia.
  - simpl. f_equal. apply Z.mod_small. lia.
Qed.

Lemma write_W_zero_extends_witness :
  (0 <= 3 /\ (Z.to_nat 3 < length (repeat 0 33))%nat /\ 3 <> ZR_index /\
   0 <= 305419896 < 2 ^ 32) /\
  exists x, read_X (write_W (repeat 0 33) 3 305419896) 3 = Some x /\
            x = 305419896 /\ Z.shiftr x 32 = 0 /\
            read_W (write_W (repeat 0 33) 3 305419896) 3 = Some 305419896.
Proof.
  split; [vm_compute; repeat split; try discriminate; lia |].
  apply write_W_zero_extends; [lia | vm_compute; lia | discriminate | lia].
Defined.

(** ** Flag primitive *)

(** C9.  The 32-bit overload sets N to bit 31 of the result, Z to
    [result == 0], C to the unsigned carry-out of [old + addend] (which is
    [result < old]) and V to the signed overflow at the 32-bit boundary (both
    operands of one sign, the result of the other).  On the pair
    [0x7FFFFFFF, 0x80000000] it sets N and V and clears Z and C. *)
Theorem setNZCVFlags32_flags (c : Core) (oldValue newValue : Z) :
  let o := oldValue mod 2 ^ 32 in
  let n := newValue mod 2 ^ 32 in
  let addend := (n - o) mod 2 ^ 32 in
  let ps := PSTATE (setNZCVFlags32 c oldValue newValue) in
  PS_N ps = Z.b2z (Z.testbit n 31) /\
  PS_Z ps = Z.b2z (n =? 0) /\
  PS_C ps = Z.b2z (2 ^ 32 <=? o + addend) /\
  PS_C ps = Z.b2z (n <? o) /\
  PS_V ps = Z.b2z (Bool.eqb (o <? 2 ^ 31) (addend <? 2 ^ 31) &&
                   negb (Bool.eqb (n <? 2 ^ 31) (o <? 2 ^ 31))) /\
  (let ps' := PSTATE (setNZCVFlags32 c 2147483647 2147483648) in
   PS_N ps' = 1 /\ PS_Z ps' = 0 /\ PS_C ps' = 0 /\ PS_V ps' = 1).
Proof.
  intros o n addend ps.
  assert (Ho : 0 <= o < 2 ^ 32) by (apply Z.mod_pos_bound; lia).
  assert (Hn : 0 <= n < 2 ^ 32) by (apply Z.mod_pos_bound; lia).
  assert (Ha : addend = if o <=? n then n - o else n - o + 2 ^ 32)
    by (apply mod_diff; lia).
  unfold ps, setNZCVFlags32, setNZCVFlags_w, set_PSTATE, set_NZCV, sint.
  cbn [PSTATE PS_N PS_Z PS_C PS_V].
  fold o n addend. rewrite !bitfield1_b2z.
  change (32 - 1) with 31.
  split; [reflexivity |]. split; [reflexivity |].
  rewrite Ha.
  repeat split;
    repeat match goal with
           | |- context [?a <=? ?b] => destruct (Z.leb_spec a b)
           | |- context [?a <? ?b] => destruct (Z.ltb_spec a b)
           | |- context [?a =? ?b] => destruct (Z.eqb_spec a b)
           end; simpl; try reflexivity; try lia.
Qed.

(** ** Logical-immediate decoding *)

Lemma wmask_len_ok_all :
  forallb (fun N => forallb (wmask_len_ok N) (map Z.of_nat (seq 0 64))) [0; 1]
  = true.
Proof. vm_compute. reflexivity. Qed.

Lemma wmask_len_reserved (N imms : Z) :
  0 <= N <= 1 -> 0 <= imms < 64 ->
  (wmask_len N imms < 1 <-> N = 0 /\ 62 <= imms) /\ wmask_len N imms <= 6.
Proof.
  intros HN Himms.
  assert (Hok : wmask_len_ok N imms = true).
  { pose proof wmask_len_ok_all as Hall. rewrite forallb_forall in Hall.
    assert (HinN : In N [0; 1]) by (simpl; lia).
    specialize (Hall N HinN). rewrite forallb_forall in Hall.
    apply Hall, Z_in_seq_range. simpl. lia. }
  unfold wmask_len_ok in Hok.
  apply andb_true_iff in Hok as [Heq Hle].
  apply Z.leb_le in Hle. split; [| exact Hle].
  destruct (Z.ltb_spec (wmask_len N imms) 1);
    destruct (Z.eqb_spec N 0); destruct (Z.leb_spec 62 imms);
    simpl in Heq; try discriminate; lia.
Qed.

(** C4.  For [N] a bit and [imms] a 6-bit field, the decode fails exactly on
    the reserved element size ([N = 0] and the top five bits of [imms] set);
    the failure is [InvalidImmediateEncoding], which is not
    [UndefinedEncoding], and no mask comes with it.  On every other triple
    it returns the element of [S + 1] ones rotated right by [R] and
    replicated over 64 bits, the element size being [2^len] with
    [1 <= len <= 6]. *)
Theorem decodeImmediateWMask_reserved (N imms immr : Z)
  (HN : 0 <= N <= 1) (Himms : 0 <= imms < 64) :
  (decodeImmediateWMask N imms immr = inl InvalidImmediateEncoding <->
   N = 0 /\ 62 <= imms) /\
  (forall e, decodeImmediateWMask N imms immr = inl e ->
             e = InvalidImmediateEncoding /\ e <> UndefinedEncoding) /\
  (~ (N = 0 /\ 62 <= imms) ->
   exists len, wmask_len N imms = len /\ 1 <= len <= 6 /\
     decodeImmediateWMask N imms immr =
       inr (Replicate
              (ROR (Z.ones (Z.land imms (Z.ones len) + 1))
                   (Z.land immr (Z.ones len)) (2 ^ len))
              (2 ^ len) (Z.to_nat (64 / 2 ^ len)))).
Proof.
  destruct (wmask_len_reserved N imms HN Himms) as [Hres Hle].
  unfold decodeImmediateWMask.
  destruct (Z.ltb_spec (wmask_len N imms) 1) as [Hlt | Hge].
  - split; [split; [intros _; apply Hres, Hlt | reflexivity] |].
    split.
    + intros e He. injection He as <-. split; [reflexivity | discriminate].
    + intros Hnot. exfalso. apply Hnot, Hres, Hlt.
  - split; [split; [discriminate | intros H; apply Hres in H; lia] |].
    split.
    + intros e He. discriminate.
    + intros _. exists (wmask_len N imms). split; [reflexivity |].
      split; [lia | reflexivity].
Qed.

Lemma decodeImmediateWMask_reserved_witness :
  (0 <= 0 <= 1 /\ 0 <= 62 < 64) /\
  decodeImmediateWMask 0 62 5 = inl InvalidImmediateEncoding.
Proof.
  split; [lia |].
  apply (decodeImmediateWMask_reserved 0 62 5); lia.
Defined.

(** Sample valid triples: 2-bit elements [01] give 0x5555555555555555;
    32-bit elements of one set bit rotated by one give 0x8000000080000000. *)
Example decodeImmediateWMask_alternating :
  decodeImmediateWMask 0 60 0 = inr 6148914691236517205.
Proof. vm_compute. reflexivity. Qed.

Example decodeImmediateWMask_rotated :
  decodeImmediateWMask 0 0 1 = inr 9223372039002259456.
Proof. vm_compute. reflexivity. Qed.

(** ** Decoder *)

Lemma decode_inr_first (lut : list InstructionPattern) (w : Z)
  (h : InstructionHandler) :
  decode lut w = inr h <->
  exists i p, lut !! i = Some p /\ pattern_matches w p = true /\ type p = h /\
    (forall k q, (k < i)%nat -> lut !! k = Some q -> pattern_matches w q = false).
Proof.
  induction lut as [| p0 rest IH]; simpl.
  - split; [discriminate |]. intros (i & p & Hp & _). done.
  - destruct (pattern_matches w p0) eqn:Hm0.
    + split.
      * intros Hh. injection Hh as <-. exists 0%nat, p0.
        repeat split; [assumption |]. intros k q Hk. lia.
      * intros (i & p & Hp & Hm & <- & Hfirst). destruct i as [| i].
        -- simpl in Hp. injection Hp as ->. reflexivity.
        -- exfalso. specialize (Hfirst 0%nat p0 ltac:(lia) eq_refl).
           congruence.
    + rewrite IH. split.
      * intros (i & p & Hp & Hm & Hh & Hfirst). exists (S i), p.
        repeat split; try assumption.
        intros [| k] q Hk Hq; simpl in Hq.
        -- injection Hq as <-. assumption.
        -- apply (Hfirst k); [lia | assumption].
      * intros (i & p & Hp & Hm & Hh & Hfirst). destruct i as [| i].
        -- simpl in Hp. injection Hp as ->. congruence.
        -- exists i, p. repeat split; try assumption.
           intros k q Hk Hq. apply (Hfirst (S k)); [lia | assumption].
Qed.

Lemma decode_inl_none (lut : list InstructionPattern) (w : Z) (e : CoreError) :
  decode lut w = inl e <->
  e = UndefinedEncoding /\ (forall p, In p lut -> pattern_matches w p = false).
Proof.
  induction lut as [| p0 rest IH]; simpl.
  - split.
    + intros He. injection He as <-. split; [reflexivity | contradiction].
    + intros [-> _]. reflexivity.
  - destruct (pattern_matches w p0) eqn:Hm0.
    + split; [discriminate |]. intros [_ Hall].
      rewrite (Hall p0 (or_introl eq_refl)) in Hm0. discriminate.
    + rewrite IH. split.
      * intros [He Hall]. split; [assumption |].
        intros p [<- | Hin]; [assumption | apply Hall, Hin].
      * intros [He Hall]. split; [assumption |]. intros p Hin.
        apply Hall. right. exact Hin.
Qed.

(** C2.  [decode] returns the handler of the first entry of the table whose
    [(word & mask) == pattern] holds, reports [UndefinedEncoding] exactly
    when no entry matches, and, when two entries match, selects an entry no
    later than the earlier of the two. *)
Theorem decode_first_match (lut : list InstructionPattern) (w : Z) :
  (forall h, decode lut w = inr h <->
     exists i p, lut !! i = Some p /\ pattern_matches w p = true /\
       type p = h /\
       (forall k q, (k < i)%nat -> lut !! k = Some q ->
                    pattern_matches w q = false)) /\
  (forall e, decode lut w = inl e <->
     e = UndefinedEncoding /\ (forall p, In p lut -> pattern_matches w p = false)) /\
  (forall i j pi pj, (i < j)%nat -> lut !! i = Some pi -> lut !! j = Some pj ->
     pattern_matches w pi = true -> pattern_matches w pj = true ->
     exists k pk, (k <= i)%nat /\ lut !! k = Some pk /\
       decode lut w = inr (type pk)).
Proof.
  split; [intros h; apply decode_inr_first |].
  split; [intros e; apply decode_inl_none |].
  intros i j pi pj Hij Hi Hj Hmi Hmj.
  destruct (decode lut w) as [e | h] eqn:Hd.
  - apply decode_inl_none in Hd as [_ Hall].
    assert (Hin : In pi lut).
    { apply list_elem_of_In. eapply list_elem_of_lookup_2. exact Hi. }
    rewrite (Hall pi Hin) in Hmi. discriminate.
  - pose proof Hd as Hd'.
    apply decode_inr_first in Hd as (k & pk & Hk & Hmk & Hh & Hfirst).
    exists k, pk. split; [| split; [assumption | rewrite Hh; reflexivity]].
    destruct (Nat.le_gt_cases k i) as [Hle | Hgt]; [assumption |].
    rewrite (Hfirst i pi Hgt Hi) in Hmi. discriminate.
Qed.

Lemma decode_first_match_witness :
  exists k pk, (k <= 0)%nat /\ overlapping_lut !! k = Some pk /\
    decode overlapping_lut adds_x1_x2_5 = inr (type pk) /\
    type pk = ADDS_IMMEDIATE.
Proof.
  destruct (proj2 (proj2 (decode_first_match overlapping_lut adds_x1_x2_5))
              0%nat 1%nat _ _ ltac:(lia) eq_refl eq_refl eq_refl eq_refl)
    as (k & pk & Hk & Hpk & Hd).
  exists k, pk. repeat split; try assumption.
  assert (k = 0%nat) as -> by lia. injection Hpk as <-. reflexivity.
Defined.

(** ** Breakpoint table *)

Lemma find_free_some (bps : list (option Z)) (fuel id r : nat) :
  find_free bps id fuel = Some r ->
  (id <= r < id + fuel)%nat /\ bps !! r = Some None /\
  (forall k, (id <= k < r)%nat -> bps !! k <> Some None).
Proof.
  revert id. induction fuel as [| f IH]; intros id; simpl; [discriminate |].
  destruct (bps !! id) as [[a |] |] eqn:Hid.
  - intros Hr. apply IH in Hr as (Hb & Hr & Hk).
    split; [lia |]. split; [assumption |]. intros k Hk'.
    destruct (Nat.eq_dec k id) as [-> | Hne]; [congruence | apply Hk; lia].
  - intros Hr. injection Hr as <-. split; [lia |]. split; [assumption |].
    intros k Hk. lia.
  - intros Hr. apply IH in Hr as (Hb & Hr & Hk).
    split; [lia |]. split; [assumption |]. intros k Hk'.
    destruct (Nat.eq_dec k id) as [-> | Hne]; [congruence | apply Hk; lia].
Qed.

Lemma find_free_none (bps : list (option Z)) (fuel id : nat) :
  find_free bps id fuel = None <->
  (forall k, (id <= k < id + fuel)%nat -> bps !! k <> Some None).
Proof.
  revert id. induction fuel as [| f IH]; intros id; simpl.
  - split; [intros _ k Hk; lia | reflexivity].
  - destruct (bps !! id) as [[a |] |] eqn:Hid.
    + rewrite IH. split.
      * intros H k Hk. destruct (Nat.eq_dec k id) as [-> | Hne];
          [congruence | apply H; lia].
      * intros H k Hk. apply H. lia.
    + split; [discriminate |]. intros H. exfalso. apply (H id); [lia | assumption].
    + rewrite IH. split.
      * intros H k Hk. destruct (Nat.eq_dec k id) as [-> | Hne];
          [congruence | apply H; lia].
      * intros H k Hk. apply H. lia.
Qed.

Lemma slot_in_range_occupied (bps : list (option Z)) (k : nat) :
  (k < length bps)%nat -> bps !! k <> Some None ->
  exists a, bps !! k = Some (Some a).
Proof.
  intros Hk Hne. destruct (lookup_lt_is_Some_2 bps k Hk) as [[a |] Ha].
  - exists a. exact Ha.
  - contradiction.
Qed.

(** C5.  The table holds [NumBreakpoints + 1 = 17] slots, the step slot
    being the last, id 16.  [setBreakpoint] puts the address in the first
    free user slot and returns its id, which is below 16 and never the step
    slot's; the step slot is untouched.  It reports failure, leaving the core
    as it was, exactly when the 16 user slots are all occupied. *)
Theorem setBreakpoint_first_free (c : Core) (address : Z)
  (Hlen : length (m_breakpoints c) = S NumBreakpoints) :
  NumBreakpoints = 16%nat /\ TemporarySteppingBreakpointId = NumBreakpoints /\
  (forall gpr pc ps, length (m_breakpoints (new_Core gpr pc ps)) = 17%nat) /\
  (forall id c', setBreakpoint c address = Some (id, c') ->
     (id < NumBreakpoints)%nat /\ id <> TemporarySteppingBreakpointId /\
     m_breakpoints c !! id = Some None /\
     (forall k, (k < id)%nat -> exists a, m_breakpoints c !! k = Some (Some a)) /\
     m_breakpoints c' = <[id := Some address]> (m_breakpoints c) /\
     m_breakpoints c' !! TemporarySteppingBreakpointId =
       m_breakpoints c !! TemporarySteppingBreakpointId) /\
  (setBreakpoint c address = None <->
     forall k, (k < NumBreakpoints)%nat ->
               exists a, m_breakpoints c !! k = Some (Some a)).
Proof.
  split; [reflexivity |]. split; [reflexivity |].
  split; [intros; reflexivity |].
  unfold setBreakpoint. split.
  - intros id c' Hs.
    destruct (find_free (m_breakpoints c) 0 NumBreakpoints) as [r |] eqn:Hf;
      [| discriminate].
    injection Hs as <- <-.
    apply find_free_some in Hf as (Hr & Hfree & Hocc).
    split; [lia |]. split; [unfold TemporarySteppingBreakpointId; lia |].
    split; [assumption |]. split.
    + intros k Hk. apply slot_in_range_occupied;
        [rewrite Hlen; unfold NumBreakpoints in *; lia | apply Hocc; lia].
    + split; [reflexivity |]. simpl.
      apply list_lookup_insert_ne. unfold TemporarySteppingBreakpointId. lia.
  - destruct (find_free (m_breakpoints c) 0 NumBreakpoints) as [r |] eqn:Hf.
    + split; [discriminate |]. intros Hall.
      apply find_free_some in Hf as (Hr & Hfree & _).
      destruct (Hall r ltac:(lia)) as [a Ha]. congruence.
    + split; [intros _ | reflexivity].
      pose proof (proj1 (find_free_none _ _ _) Hf) as Hnone. intros k Hk.
      apply slot_in_range_occupied;
        [rewrite Hlen; unfold NumBreakpoints in *; lia | apply Hnone; lia].
Qed.

Lemma setBreakpoint_first_free_witness :
  length (m_breakpoints core0) = S NumBreakpoints /\
  (forall id c', setBreakpoint core0 4096 = Some (id, c') ->
     (id < NumBreakpoints)%nat /\ id <> TemporarySteppingBreakpointId).
Proof.
  split; [reflexivity |].
  intros id c' Hs.
  destruct (setBreakpoint_first_free core0 4096 eq_refl)
    as (_ & _ & _ & Hsome & _).
  destruct (Hsome id c' Hs) as (H1 & H2 & _). split; assumption.
Defined.

(** ** Single step *)

Lemma insert_after_prefix {A} (l1 : list A) (x y : A) :
  <[length l1 := x]> (l1 ++ [y]) = l1 ++ [x].
Proof. induction l1 as [| a l1 IH]; simpl; [reflexivity | rewrite IH; reflexivity]. Qed.

Lemma split_last_slot (bps : list (option Z)) :
  length bps = S NumBreakpoints ->
  exists y, bps = take NumBreakpoints bps ++ [y].
Proof.
  intros Hlen. pose proof (take_drop NumBreakpoints bps) as E.
  assert (Hd : length (drop NumBreakpoints bps) = 1%nat)
    by (rewrite length_drop; lia).
  destruct (drop NumBreakpoints bps) as [| y [| z r]]; simpl in Hd; try lia.
  exists y. symmetry. exact E.
Qed.

Lemma breakpoint_hit_last (pre : list (option Z)) (x : option Z) (pc : Z) :
  breakpoint_hit (pre ++ [x]) pc =
  breakpoint_hit pre pc ||
  match x with Some a => a =? pc | None => false end.
Proof. unfold breakpoint_hit. rewrite existsb_app. simpl. rewrite orb_false_r. reflexivity. Qed.

(** C6.  From [Broken] at PC [A] in debug mode, [singleStep] arms the step
    slot with the address following [A], executes exactly one cycle, then
    disarms the step slot and re-enters [Broken] at the PC that cycle left
    (so also after a branch); the user slots are untouched, and further
    ticks do nothing until the core is continued.  After [continueCore],
    unless a user slot is armed at that PC, the next [tick] runs the
    instruction there instead of breaking again. *)
Theorem singleStep_one_cycle (next_pc : Z -> Z) (c : Core) (A : Z)
  (Hdbg : m_debugMode c = true) (Hbrk : m_broken c = true)
  (Hhalt : m_halted c = false) (HPC : PC c = A)
  (Hlen : length (m_breakpoints c) = S NumBreakpoints) :
  m_breakpoints (armStep c) !! TemporarySteppingBreakpointId =
    Some (Some (next_address A)) /\
  m_broken (armStep c) = false /\
  (let s1 := singleStep next_pc c in
   retired s1 = S (retired c) /\ PC s1 = next_pc A /\
   m_broken s1 = true /\ m_debugMode s1 = true /\
   m_breakpoints s1 !! TemporarySteppingBreakpointId = Some None /\
   take NumBreakpoints (m_breakpoints s1) =
     take NumBreakpoints (m_breakpoints c) /\
   tick next_pc s1 = s1 /\
   (breakpoint_hit (take NumBreakpoints (m_breakpoints c)) (next_pc A) = false ->
    let s2 := tick next_pc (continueCore s1) in
    m_broken s2 = false /\ PC s2 = next_pc (next_pc A) /\
    retired s2 = S (S (retired c)))).
Proof.
  destruct c as [halted broken dbg bps gpr pc ps ret].
  cbn [m_halted m_broken m_debugMode PC m_breakpoints retired]
    in Hdbg, Hbrk, Hhalt, HPC, Hlen |- *.
  subst halted broken dbg pc.
  destruct (split_last_slot bps Hlen) as [y Hy].
  set (pre := take NumBreakpoints bps) in *.
  assert (Hpre : length pre = NumBreakpoints)
    by (unfold pre; rewrite length_take; lia).
  set (a4 := next_address A).
  assert (E0 : armStep (mkCore false true true bps gpr A ps ret) =
               mkCore false false true (pre ++ [Some a4]) gpr A ps ret).
  { unfold armStep, set_debug; simpl. unfold TemporarySteppingBreakpointId.
    rewrite Hy at 1. rewrite <- Hpre, insert_after_prefix. reflexivity. }
  assert (E1 : singleStep next_pc (mkCore false true true bps gpr A ps ret) =
               mkCore false true true (pre ++ [None]) gpr (next_pc A) ps (S ret)).
  { unfold singleStep. rewrite E0.
    unfold after_cycle, cycle, step_armed, finishStep, set_debug; simpl.
    unfold TemporarySteppingBreakpointId. rewrite <- Hpre.
    rewrite list_lookup_middle by reflexivity. simpl.
    rewrite insert_after_prefix. reflexivity. }
  rewrite E0. split; [| split; [reflexivity |]].
  { simpl. unfold TemporarySteppingBreakpointId. rewrite <- Hpre.
    apply list_lookup_middle. reflexivity. }
  cbv zeta. rewrite E1. simpl.
  do 4 (split; [reflexivity |]).
  split; [unfold TemporarySteppingBreakpointId; rewrite <- Hpre;
          apply list_lookup_middle; reflexivity |].
  split; [rewrite <- Hpre at 1; rewrite take_app_length; reflexivity |].
  split; [reflexivity |].
  intros Hno. unfold continueCore, set_debug, tick, after_cycle, cycle,
    step_armed; simpl.
  rewrite breakpoint_hit_last, Hno. simpl.
  unfold TemporarySteppingBreakpointId. rewrite <- Hpre.
  rewrite list_lookup_middle by reflexivity. simpl. repeat split.
Qed.

(** Stepping over the branch at address 0 stops at its target 0x100. *)
Lemma singleStep_one_cycle_witness :
  m_debugMode broken_at_0 = true /\ m_broken broken_at_0 = true /\
  m_halted broken_at_0 = false /\ PC broken_at_0 = 0 /\
  length (m_breakpoints broken_at_0) = S NumBreakpoints /\
  PC (singleStep branch_at_0 broken_at_0) = 256 /\
  m_broken (singleStep branch_at_0 broken_at_0) = true /\
  retired (singleStep branch_at_0 broken_at_0) = 1%nat.
Proof.
  do 5 (split; [reflexivity |]).
  destruct (singleStep_one_cycle branch_at_0 broken_at_0 0 eq_refl eq_refl
              eq_refl eq_refl eq_refl)
    as (_ & _ & Hret & HPC & Hbrk & _).
  split; [exact HPC |]. split; [exact Hbrk | exact Hret].
Defined.

(** ** Initial state *)

(** C10.  A newly constructed core is neither halted nor broken nor in
    debug mode, and its first [tick] runs one fetch/decode/execute cycle. *)
Theorem new_Core_first_tick_runs (next_pc : Z -> Z) (gpr : list Z) (pc : Z)
  (ps : PSTATE_t) :
  let c := new_Core gpr pc ps in
  m_halted c = false /\ m_broken c = false /\ m_debugMode c = false /\
  tick next_pc c = cycle next_pc c /\
  PC (tick next_pc c) = next_pc pc /\ retired (tick next_pc c) = 1%nat.
Proof. repeat split. Qed.

(** ** Further properties of the header's code *)

(** The stack-pointer register that [GPSP] selects for any [R >= 31] is
    never one of the slots [0..31] that [GPZR] designates; two cores select
    the same stack pointer exactly when their exception levels agree; below
    31 [GPSP] and [GPZR] designate the same register. *)
Theorem GPSP_stack_pointer_banked (c1 c2 : Core) (R1 R2 : Z)
  (H1 : 0 <= PS_EL (PSTATE c1)) (H2 : 0 <= PS_EL (PSTATE c2))
  (HR1 : 31 <= R1) (HR2 : 31 <= R2) :
  (GPSP c1 R1 = GPSP c2 R2 <-> PS_EL (PSTATE c1) = PS_EL (PSTATE c2)) /\
  (forall R, 0 <= R <= 31 -> GPSP c1 R1 <> GPZR c2 R) /\
  (forall R, R < 31 -> GPSP c1 R = GPZR c1 R).
Proof.
  unfold GPSP, GPZR.
  destruct (Z.ltb_spec R1 31); [lia |].
  destruct (Z.ltb_spec R2 31); [lia |].
  split; [lia |]. split; [intros R HR; lia |].
  intros R HR. destruct (Z.ltb_spec R 31); lia.
Qed.

Lemma GPSP_stack_pointer_banked_witness :
  GPSP (set_PSTATE core0 (with_EL PSTATE_zero 1)) 31 <>
  GPSP (set_PSTATE core0 (with_EL PSTATE_zero 2)) 40.
Proof.
  intros Heq.
  destruct (GPSP_stack_pointer_banked
              (set_PSTATE core0 (with_EL PSTATE_zero 1))
              (set_PSTATE core0 (with_EL PSTATE_zero 2)) 31 40
              ltac:(zrange) ltac:(zrange) ltac:(lia) ltac:(lia))
    as [[Hsame _] _].
  apply Hsame in Heq. discriminate.
Defined.

(** [PSTATE.EL] is a two-bit field: whatever value is assigned to it,
    [GPSP(R)] for [R >= 31] selects stack pointer [32 + el mod 4], and every
    index [GPSP] designates for a register number [R] lies in [0..35]. *)
Theorem GPSP_EL_field_wraps (c : Core) (el R : Z) (HR : 0 <= R) :
  let c' := set_PSTATE c (with_EL (PSTATE c) el) in
  0 <= GPSP c' R <= 35 /\ (31 <= R -> GPSP c' R = 32 + el mod 4).
Proof.
  cbv zeta. unfold GPSP, set_PSTATE, with_EL, bitfield. simpl.
  pose proof (Z.mod_pos_bound el 4 ltac:(lia)).
  change (2 ^ 2) with 4.
  destruct (Z.ltb_spec R 31); split; intros; lia.
Qed.

Lemma GPSP_EL_field_wraps_witness :
  0 <= 31 /\ GPSP (set_PSTATE core0 (with_EL (PSTATE core0) 5)) 31 = 33.
Proof.
  split; [lia |].
  destruct (GPSP_EL_field_wraps core0 5 31 ltac:(lia)) as [_ H].
  rewrite H by lia. reflexivity.
Defined.
